(** * syncs: additional sync types, verified against their contracts

    A shallow embedding of [syncs/syncs.go]: the generic atomic value, the
    wait group with a done channel, the counting semaphore and the
    mutex-protected map.  Every operation of the package is atomic (one
    atomic instruction, one channel operation, or a critical section of the
    map's lock), so an operation is embedded as one function from the state
    before the call to the state after it.  An operation that can panic
    returns a [result]; an operation that can block returns an [option],
    [None] standing for a goroutine that is parked and has changed nothing. *)

From Stdlib Require Import ZArith Lia List.
From stdpp Require Import base option gmap strings.
Import ListNotations.

Open Scope Z_scope.

(** ** Outcomes of a call *)

(** A call either returns a value or panics with the runtime's message. *)
Inductive result (A : Type) : Type :=
| Ok (a : A)
| Panic (msg : string).
Arguments Ok {A} a.
Arguments Panic {A} msg.

Definition rbind {A B : Type} (r : result A) (k : A -> result B) : result B :=
  match r with
  | Ok a => k a
  | Panic msg => Panic msg
  end.

Notation "x <-! r ; k" := (rbind r (fun x => k))
  (at level 100, r at next level, right associativity, only parsing).

Definition returned {A : Type} (r : result A) : bool :=
  match r with Ok _ => true | Panic _ => false end.

(** What a goroutine observes of a call that may block. *)
Inductive progress : Type := Returns | Blocks.

(** ** Machine integers *)

(** Go's [int64]: two's complement on 64 bits.  [int] is taken as the 64-bit
    [int] of the platforms the package is built for, so [int64(delta)] keeps
    the value. *)
Definition wrap64 (z : Z) : Z := (z + 2 ^ 63) mod 2 ^ 64 - 2 ^ 63.

Definition int64_of_int (delta : Z) : Z := wrap64 delta.

(** [atomic.AddInt64(&n, d)]: the new value of [n], wrapped. *)
Definition AddInt64 (n d : Z) : Z := wrap64 (n + d).

(** ** WaitGroupChan *)

Module WaitGroupChan.

(** [done chan struct{}]: an unbuffered channel nothing is ever sent on.
    All that matters of it is whether it was closed.  (The constructor
    always makes the channel; the zero value, with a nil channel, is
    documented as not usable and is not a state of this model.) *)
Inductive chan : Type := Open | Closed.

(** [close(c)]: closing a closed channel is a runtime panic. *)
Definition close (c : chan) : result chan :=
  match c with
  | Open => Ok Closed
  | Closed => Panic "close of closed channel"
  end.

(** [<-c] on a channel without senders proceeds iff the channel is closed. *)
Definition recv (c : chan) : progress :=
  match c with
  | Closed => Returns
  | Open => Blocks
  end.

Record t : Type := mk { n : Z; done : chan }.

Definition NewWaitGroupChan : t := {| n := 0; done := Open |}.

Definition DoneChan (wg : t) : chan := done wg.

(** [Add]: the counter is updated first, so the state after the call is
    returned also when the call panics. *)
Definition Add (wg : t) (delta : Z) : t * result unit :=
  let n' := AddInt64 (n wg) (int64_of_int delta) in
  if n' =? 0 then
    match close (done wg) with
    | Ok c => ({| n := n'; done := c |}, Ok tt)
    | Panic msg => ({| n := n'; done := done wg |}, Panic msg)
    end
  else ({| n := n'; done := done wg |}, Ok tt).

Definition Decr (wg : t) : t * result unit := Add wg (-1).

Definition Wait (wg : t) : progress := recv (done wg).

(** A goroutine's calls on one counter, in program order. *)
Inductive call : Type := CAdd (delta : Z) | CDecr.

Definition do_call (wg : t) (c : call) : t * result unit :=
  match c with
  | CAdd delta => Add wg delta
  | CDecr => Decr wg
  end.

(** Runs the calls in order; a panic ends the run. *)
Fixpoint run (wg : t) (cs : list call) : t * result unit :=
  match cs with
  | [] => (wg, Ok tt)
  | c :: cs' =>
      match do_call wg c with
      | (wg', Ok _) => run wg' cs'
      | (wg', Panic msg) => (wg', Panic msg)
      end
  end.

Definition delta_of (c : call) : Z :=
  match c with CAdd delta => delta | CDecr => -1 end.

(** How many of the calls leave the counter at exactly zero, starting from
    counter value [n0]. *)
Fixpoint zero_hits (n0 : Z) (cs : list call) : nat :=
  match cs with
  | [] => 0%nat
  | c :: cs' =>
      let n' := AddInt64 n0 (int64_of_int (delta_of c)) in
      ((if (n' =? 0)%Z then 1 else 0) + zero_hits n' cs')%nat
  end.

(** How many more times the done channel can be closed without a panic. *)
Definition closes_left (c : chan) : nat :=
  match c with Open => 1%nat | Closed => 0%nat end.

(** Every call of the sequence leaves the counter at zero or above,
    starting from counter value [n0]. *)
Fixpoint never_negative (n0 : Z) (cs : list call) : bool :=
  match cs with
  | [] => true
  | c :: cs' =>
      let n' := AddInt64 n0 (int64_of_int (delta_of c)) in
      (0 <=? n') && never_negative n' cs'
  end.

(** The sum of the deltas of the calls, in unbounded integers. *)
Definition total_delta (cs : list call) : Z :=
  fold_right (fun c acc => delta_of c + acc) 0 cs.

End WaitGroupChan.

(** ** Interface values *)

Module Go.

(** What the runtime knows of values held in an [any]: a non-nil interface
    value [dyn] carries its dynamic type and its data; [dyn_eq] is [==] on
    two values of one dynamic type, [None] when that type is not
    comparable (a runtime panic). *)
Class Runtime : Type := {
  rtype : Type;
  rtype_eq_dec : EqDecision rtype;
  dyn : Type;
  type_of : dyn -> rtype;
  dyn_eq : dyn -> dyn -> option bool;
}.
#[global] Existing Instance rtype_eq_dec.

(** An [any]: nil, or a dynamic type with data. *)
Definition any `{Runtime} : Type := option dyn.

(** [a == b] on interface values. *)
Definition iface_eq `{Runtime} (a b : any) : result bool :=
  match a, b with
  | None, None => Ok true
  | None, Some _ | Some _, None => Ok false
  | Some x, Some y =>
      if decide (type_of x = type_of y) then
        match dyn_eq x y with
        | Some r => Ok r
        | None => Panic "runtime error: comparing uncomparable type"
        end
      else Ok false
  end.

(** A type argument [T]: its zero value, the conversion of a [T] to [any],
    and the type assertion [x.(T)] on a non-nil [x] ([None] is its panic).
    For a [T] that is not an interface type [to_any] never gives nil and
    always gives the dynamic type [T]; for an interface type the nil
    interface converts to the nil [any]. *)
Class GoType `{Runtime} (T : Type) : Type := {
  zero : T;
  to_any : T -> any;
  assert_T : dyn -> option T;
  assert_to_any : forall (x : T) (d : dyn), to_any x = Some d -> assert_T d = Some x;
}.

(** [x == y] on two values of type [T]. *)
Definition eq_T `{GoType T} (x y : T) : result bool :=
  iface_eq (to_any x) (to_any y).

(** [T] is not an interface type: its values all convert to a non-nil
    [any] of the one dynamic type [ty]. *)
Definition concrete `{Runtime} (T : Type) `{!GoType T} (ty : rtype) : Prop :=
  forall x : T, exists d : dyn, to_any x = Some d /\ type_of d = ty.

End Go.

(** ** sync/atomic.Value *)

(** The standard library's [atomic.Value], as documented: it holds an [any],
    nil until the first store; storing nil panics, and so does storing a
    value whose dynamic type differs from that of the value held. *)
Module atomic.
Section Value.
Context `{Go.Runtime}.

Definition Value : Type := Go.any.

Definition Load (v : Value) : Go.any := v.

Definition Store (v : Value) (val : Go.any) : result Value :=
  match val with
  | None => Panic "sync/atomic: store of nil value into Value"
  | Some d =>
      match v with
      | None => Ok val
      | Some c =>
          if decide (Go.type_of c = Go.type_of d) then Ok val
          else Panic "sync/atomic: store of inconsistently typed value into Value"
      end
  end.

(** Returns the value held before and the new state. *)
Definition Swap (v : Value) (new : Go.any) : result (Go.any * Value) :=
  match new with
  | None => Panic "sync/atomic: swap of nil value into Value"
  | Some d =>
      match v with
      | None => Ok (None, new)
      | Some c =>
          if decide (Go.type_of c = Go.type_of d) then Ok (v, new)
          else Panic "sync/atomic: swap of inconsistently typed value into Value"
      end
  end.

(** On an empty [Value] the swap happens only for a nil [old]. *)
Definition CompareAndSwap (v : Value) (old new : Go.any)
  : result (bool * Value) :=
  match new with
  | None => Panic "sync/atomic: compare and swap of nil value into Value"
  | Some nd =>
      let consistent :=
        match old with
        | Some od => bool_decide (Go.type_of od = Go.type_of nd)
        | None => true
        end in
      if consistent then
        match v with
        | None =>
            match old with
            | Some _ => Ok (false, v)
            | None => Ok (true, new)
            end
        | Some c =>
            if decide (Go.type_of c = Go.type_of nd) then
              same <-! Go.iface_eq v old;
              if same then Ok (true, new) else Ok (false, v)
            else Panic "sync/atomic: compare and swap of inconsistently typed value into Value"
        end
      else Panic "sync/atomic: compare and swap of inconsistently typed values"
  end.

End Value.
End atomic.

(** ** AtomicValue *)

Module AtomicValue.
Section AtomicValue.
Context `{Go.Runtime} {T : Type} `{!Go.GoType T}.

Record t : Type := mk { v : atomic.Value }.

(** The zero value of the struct: nothing stored yet. *)
Definition empty : t := {| v := None |}.

Definition LoadOk (a : t) : result (T * bool) :=
  match atomic.Load (v a) with
  | Some x =>
      match Go.assert_T x with
      | Some y => Ok (y, true)
      | None => Panic "interface conversion"
      end
  | None => Ok (Go.zero, false)
  end.

Definition Load (a : t) : result T :=
  r <-! LoadOk a; Ok (fst r).

Definition Store (a : t) (x : T) : result t :=
  v' <-! atomic.Store (v a) (Go.to_any x); Ok {| v := v' |}.

(** Returns the previous value and the new state. *)
Definition Swap (a : t) (x : T) : result (T * t) :=
  r <-! atomic.Swap (v a) (Go.to_any x);
  match fst r with
  | Some oldV =>
      match Go.assert_T oldV with
      | Some old => Ok (old, {| v := snd r |})
      | None => Panic "interface conversion"
      end
  | None => Ok (Go.zero, {| v := snd r |})
  end.

Definition CompareAndSwap (a : t) (oldV newV : T) : result (bool * t) :=
  r <-! atomic.CompareAndSwap (v a) (Go.to_any oldV) (Go.to_any newV);
  Ok (fst r, {| v := snd r |}).

(** The value is empty or holds the conversion of some [T]; nothing else
    can be put into the unexported field. *)
Definition holds (a : t) (x : T) : Prop :=
  v a = Go.to_any x /\ v a <> None.

Definition wf (a : t) : Prop :=
  a = empty \/ exists x : T, holds a x.

(** [atomic.Value] accepts [x]: its conversion is not nil and has the
    dynamic type of the value held, if one is held. *)
Definition storable (a : t) (x : T) : bool :=
  match Go.to_any x with
  | Some d =>
      match v a with
      | Some c => bool_decide (Go.type_of c = Go.type_of d)
      | None => true
      end
  | None => false
  end.

End AtomicValue.
Arguments t {_}.
End AtomicValue.

(** ** Semaphore *)

Module Semaphore.

(** [c chan struct{}], a buffered channel used for its occupancy only:
    [cap] is the capacity given to [make], [len] the number of elements
    queued.  The operations below are those of a goroutine that finds no
    other goroutine parked on the channel. *)
Record t : Type := mk { cap : Z; len : Z }.

(** [make(chan struct{}, n)] panics on a negative size. *)
Definition NewSemaphore (n : Z) : result t :=
  if n <? 0 then Panic "makechan: size out of range"
  else Ok {| cap := n; len := 0 |}.

(** A send can proceed when the buffer has room. *)
Definition can_send (s : t) : bool := len s <? cap s.

(** A receive can proceed when the buffer holds an element. *)
Definition can_recv (s : t) : bool := 0 <? len s.

Definition send (s : t) : t := {| cap := cap s; len := len s + 1 |}.

Definition recv (s : t) : t := {| cap := cap s; len := len s - 1 |}.

(** [s.c <- struct{}{}]; [None]: the caller blocks. *)
Definition Acquire (s : t) : option t :=
  if can_send s then Some (send s) else None.

(** A context, as far as [select] sees it: whether [ctx.Done()] is
    closed. *)
Record Context : Type := { cancelled : bool }.

(** [select] over the send and [<-ctx.Done()]: when both can proceed the
    runtime picks one at random, [pick_send] telling which; when neither
    can, the caller blocks. *)
Definition AcquireContext (pick_send : bool) (s : t) (ctx : Context)
  : option (bool * t) :=
  match can_send s, cancelled ctx with
  | true, true => if pick_send then Some (true, send s) else Some (false, s)
  | true, false => Some (true, send s)
  | false, true => Some (false, s)
  | false, false => None
  end.

(** [select] with a [default]: never blocks. *)
Definition TryAcquire (s : t) : bool * t :=
  if can_send s then (true, send s) else (false, s).

(** [<-s.c]; [None]: the caller blocks. *)
Definition Release (s : t) : option t :=
  if can_recv s then Some (recv s) else None.

(** The operations of a sequence, each run to completion. *)
Inductive op : Type :=
| OAcquire
| OAcquireContext (pick_send : bool) (ctx : Context)
| OTryAcquire
| ORelease.

(** [None]: the operation blocks, so it is not part of a sequence of
    completed operations. *)
Definition step (s : t) (o : op) : option t :=
  match o with
  | OAcquire => Acquire s
  | OAcquireContext pick_send ctx =>
      match AcquireContext pick_send s ctx with
      | Some r => Some (snd r)
      | None => None
      end
  | OTryAcquire => Some (snd (TryAcquire s))
  | ORelease => Release s
  end.

Fixpoint run (s : t) (os : list op) : option t :=
  match os with
  | [] => Some s
  | o :: os' =>
      match step s o with
      | Some s' => run s' os'
      | None => None
      end
  end.

Definition occupied (s : t) : Z := len s.

(** The channel invariant: between zero and [cap] elements are queued. *)
Definition in_bounds (s : t) : Prop := 0 <= len s <= cap s.

End Semaphore.

(** ** Map *)

Module Map.
Section Map.
(** Keys are compared by the equality of [K], as Go's [==] does on every
    key that is equal to itself. *)
Context `{Countable K} {V : Type}.
(** The zero value of [V]. *)
Context (zero : V).

(** A Go map value: nil, or an allocated table. *)
Definition gomap : Type := option (gmap K V).

(** [v, ok := m[key]]; a nil map reads as empty. *)
Definition index (mm : gomap) (key : K) : V * bool :=
  match mm with
  | Some g =>
      match g !! key with
      | Some value => (value, true)
      | None => (zero, false)
      end
  | None => (zero, false)
  end.

(** [delete(m, key)]; a no-op on a nil map. *)
Definition godelete (mm : gomap) (key : K) : gomap :=
  match mm with
  | Some g => Some (delete key g)
  | None => None
  end.

(** Modelled from the spec: [mak.Set] of [tailscale.com/util/mak], which
    is not part of the sources at hand.  The spec has the map lazily
    allocate its backing storage on first write, and a store insert or
    overwrite the entry: the map is made if it is nil, then
    [m[key] = value]. *)
Definition mak_Set (mm : gomap) (key : K) (value : V) : gomap :=
  match mm with
  | Some g => Some (<[key := value]> g)
  | None => Some (<[key := value]> ∅)
  end.

(** The struct: [mu] is held for the whole of every critical section
    below and free between them, so only [m] is state. *)
Record t : Type := mk { m : gomap }.

Definition empty : t := {| m := None |}.

Definition Load (mp : t) (key : K) : V * bool := index (m mp) key.

Definition Store (mp : t) (key : K) (value : V) : t :=
  {| m := mak_Set (m mp) key value |}.

(** The critical section of [LoadOrStore] under the write lock. *)
Definition LoadOrStore_locked (mp : t) (key : K) (value : V)
  : (V * bool) * t :=
  let r := index (m mp) key in
  if negb (snd r) then ((value, false), {| m := mak_Set (m mp) key value |})
  else (r, mp).

(** First a [Load] under the read lock, then the locked section. *)
Definition LoadOrStore (mp : t) (key : K) (value : V) : (V * bool) * t :=
  let r := Load mp key in
  if snd r then (r, mp)
  else LoadOrStore_locked mp key value.

Definition LoadAndDelete (mp : t) (key : K) : (V * bool) * t :=
  let r := index (m mp) key in
  if snd r then (r, {| m := godelete (m mp) key |})
  else (r, mp).

Definition Delete (mp : t) (key : K) : t :=
  {| m := godelete (m mp) key |}.

(** The entries of the map, as a finite map: what a reader can see. *)
Definition entries (mp : t) : gmap K V :=
  match m mp with
  | Some g => g
  | None => ∅
  end.

(** The body of [for k, v := range m.m]: [f] is called on one entry after
    the other until it answers [false]; [S] is the state the callback
    works on, each call giving its answer and the state it leaves. *)
Fixpoint range_loop {S : Type} (f : K -> V -> S -> bool * S)
    (kvs : list (K * V)) (st : S) : S :=
  match kvs with
  | [] => st
  | kv :: rest =>
      let r := f (fst kv) (snd kv) st in
      if fst r then range_loop f rest (snd r) else snd r
  end.

(** [Range]: the read lock is held over the whole loop, so the entries are
    those of [mp] throughout.  Go leaves the iteration order of a map
    open: [order] is the rearrangement the runtime makes of the entries. *)
Definition Range {S : Type} (order : list (K * V) -> list (K * V))
    (mp : t) (f : K -> V -> S -> bool * S) (st : S) : S :=
  range_loop f (order (map_to_list (entries mp))) st.

(** A callback that also records the entries it is called on. *)
Definition recording {S : Type} (f : K -> V -> S -> bool * S)
    : K -> V -> S * list (K * V) -> bool * (S * list (K * V)) :=
  fun key value st =>
    let r := f key value (fst st) in
    (fst r, (snd r, snd st ++ [(key, value)])).

(** The entries [Range] calls [f] on, in the order of the calls. *)
Definition visited {S : Type} (order : list (K * V) -> list (K * V))
    (mp : t) (f : K -> V -> S -> bool * S) (st : S) : list (K * V) :=
  snd (Range order mp (recording f) (st, [])).

End Map.
Arguments t K {_ _} V.
End Map.

(** ** A small runtime to run the operations on *)

Module Demo.

Inductive ty : Type := TInt | TString | TSlice.

Inductive value : Type :=
| VInt (z : Z)
| VString (s : string)
| VSlice (l : list Z).

Definition ty_of (x : value) : ty :=
  match x with
  | VInt _ => TInt
  | VString _ => TString
  | VSlice _ => TSlice
  end.

(** Slices have no [==]. *)
Definition value_eq (x y : value) : option bool :=
  match x, y with
  | VInt a, VInt b => Some (a =? b)
  | VString a, VString b => Some (String.eqb a b)
  | _, _ => None
  end.

#[global] Instance ty_eq_dec : EqDecision ty.
Proof. solve_decision. Defined.

#[global] Instance runtime : Go.Runtime :=
  {| Go.rtype := ty; Go.dyn := value; Go.type_of := ty_of; Go.dyn_eq := value_eq |}.

Definition int_to_any (z : Z) : Go.any := Some (VInt z).

Definition assert_int (d : value) : option Z :=
  match d with VInt z => Some z | _ => None end.

Definition assert_int_to_any (x : Z) (d : value) :
  int_to_any x = Some d -> assert_int d = Some x :=
  fun e => match e in _ = o return
                   match o with Some d' => assert_int d' = Some x | None => True end
           with eq_refl => eq_refl end.

(** [int] *)
#[global] Instance int : Go.GoType Z :=
  {| Go.zero := 0;
     Go.to_any := int_to_any;
     Go.assert_T := assert_int;
     Go.assert_to_any := assert_int_to_any |}.

Definition assert_iface (d : value) : option (option value) := Some (Some d).

Definition assert_iface_to_any (x : option value) (d : value)
  (e : x = Some d) : assert_iface d = Some x :=
  eq_sym (f_equal Some e).

(** [any] itself, as an interface type argument *)
#[global] Instance iface : Go.GoType (option value) :=
  {| Go.zero := None;
     Go.to_any := fun x => x;
     Go.assert_T := assert_iface;
     Go.assert_to_any := assert_iface_to_any |}.

(** A [Range] callback that counts its calls and goes on or stops as
    told. *)
Definition counting (go : bool) : string -> Z -> Z -> bool * Z :=
  fun _ _ calls => (go, calls + 1).

(** A map with two entries. *)
Definition two_entries : Map.t string Z :=
  Map.Store (Map.Store Map.empty "a" 1) "b" 2.

End Demo.

(** * Properties *)

(** ** Machine integers *)

Lemma wrap64_small (z : Z) : - 2 ^ 63 <= z < 2 ^ 63 -> wrap64 z = z.
Proof.
  intros Hz. unfold wrap64.
  rewrite Z.mod_small by lia. lia.
Qed.

Lemma wrap64_range (z : Z) : - 2 ^ 63 <= wrap64 z < 2 ^ 63.
Proof.
  unfold wrap64.
  pose proof (Z.mod_pos_bound (z + 2 ^ 63) (2 ^ 64) ltac:(lia)). lia.
Qed.

(** ** WaitGroupChan *)

Section WaitGroupChanFacts.
Import WaitGroupChan.

Lemma do_call_Add (wg : t) (c : call) : do_call wg c = Add wg (delta_of c).
Proof. destruct c; reflexivity. Qed.

(** One call, by cases on the new counter value and on the channel. *)
Lemma Add_cases (wg : t) (delta : Z) :
  let n' := AddInt64 (n wg) (int64_of_int delta) in
  Add wg delta =
    if n' =? 0 then
      match done wg with
      | Open => ({| n := n'; done := Closed |}, Ok tt)
      | Closed => ({| n := n'; done := Closed |}, Panic "close of closed channel")
      end
    else ({| n := n'; done := done wg |}, Ok tt).
Proof.
  unfold Add. cbv zeta.
  destruct (_ =? 0); [destruct (done wg)|]; reflexivity.
Qed.

Lemma run_returns_iff (cs : list call) :
  forall wg : t,
    snd (run wg cs) = Ok tt <->
    (zero_hits (n wg) cs <= closes_left (done wg))%nat.
Proof.
  induction cs as [|c cs IH]; intros wg; cbn [run zero_hits].
  - split; [lia | reflexivity].
  - rewrite do_call_Add, Add_cases. cbv zeta.
    destruct (_ =? 0) eqn:Hz.
    + destruct (done wg) eqn:Hd; cbn [closes_left].
      * rewrite IH. cbn [n done closes_left]. lia.
      * cbn [snd]. split; [discriminate | lia].
    + rewrite IH. cbn [n done]. lia.
Qed.

(** [Add] never checks the sign of the new counter value: a call that
    leaves the counter negative returns like any other. *)
Lemma Add_negative_no_panic (wg : t) (delta : Z) :
  AddInt64 (n wg) (int64_of_int delta) < 0 ->
  snd (Add wg delta) = Ok tt /\ n (fst (Add wg delta)) < 0 /\
  done (fst (Add wg delta)) = done wg.
Proof.
  intros Hneg. rewrite Add_cases. cbv zeta.
  destruct (_ =? 0) eqn:Hz; [apply Z.eqb_eq in Hz; lia|].
  cbn [fst snd n done]. repeat split. exact Hneg.
Qed.

(** C1: [Add] with a delta that drives the counter negative panics and
    never leaves a negative counter.  The code does neither: on a new
    counter [Add(-1)] returns normally and the counter is [-1]. *)
Theorem Add_negative_returns :
  Add NewWaitGroupChan (-1) = ({| n := -1; done := Open |}, Ok tt).
Proof. vm_compute. reflexivity. Qed.

(** C2 as stated fails: in [Add(1); Decr(); Add(1); Decr()] the counter
    reaches zero twice and the fourth call panics closing a closed
    channel. *)
Lemma second_firing_panics :
  zero_hits (n NewWaitGroupChan) [CAdd 1; CDecr; CAdd 1; CDecr] = 2%nat /\
  snd (run NewWaitGroupChan [CAdd 1; CDecr; CAdd 1; CDecr]) =
    Panic "close of closed channel".
Proof. vm_compute. split; reflexivity. Qed.

(** C2, amended: the done channel is closed by the first call that leaves
    the counter at exactly zero, and a later call that leaves it at zero
    again panics.  So a sequence of [Add]/[Decr] calls on a new counter
    that never takes the counter below zero runs without a panic iff the
    counter is left at zero at most once; and a single call on a counter
    that is not negative, leaving it not negative, returns unless it
    leaves the counter at zero with the channel already closed. *)
Theorem firing_once (cs : list call) :
  (never_negative 0 cs = true ->
   (snd (run NewWaitGroupChan cs) = Ok tt <-> (zero_hits 0 cs <= 1)%nat)) /\
  (forall (wg : t) (delta : Z),
     0 <= n wg -> 0 <= n (fst (Add wg delta)) ->
     (snd (Add wg delta) = Ok tt <->
      ~ (n (fst (Add wg delta)) = 0 /\ done wg = Closed))) /\
  (forall (wg : t) (delta : Z),
     0 <= n wg -> n (fst (Add wg delta)) = 0 ->
     done (fst (Add wg delta)) = Closed).
Proof.
  split; [|split].
  - intros _. apply (run_returns_iff cs NewWaitGroupChan).
  - intros wg delta _ _. rewrite Add_cases. cbv zeta.
    destruct (_ =? 0) eqn:Hz.
    + apply Z.eqb_eq in Hz.
      destruct (done wg); cbn [fst snd n]; split.
      * intros _ [_ H]. discriminate H.
      * reflexivity.
      * discriminate.
      * intros H. exfalso. apply H. split; [exact Hz | reflexivity].
    + apply Z.eqb_neq in Hz. cbn [fst snd n]. split.
      * intros _ [H _]. exact (Hz H).
      * reflexivity.
  - intros wg delta _. rewrite Add_cases. cbv zeta.
    destruct (_ =? 0) eqn:Hz.
    + destruct (done wg); reflexivity.
    + apply Z.eqb_neq in Hz. cbn [fst n]. intros H. contradiction.
Qed.

Lemma firing_once_witness :
  snd (run NewWaitGroupChan [CAdd 3; CDecr; CDecr; CDecr]) = Ok tt /\
  done (fst (Add {| n := 1; done := Open |} (-1))) = Closed /\
  snd (Add {| n := 1; done := Open |} (-1)) = Ok tt.
Proof.
  destruct (firing_once [CAdd 3; CDecr; CDecr; CDecr])
    as (Hrun & Hcall & Hclosed).
  split; [apply Hrun; [reflexivity | vm_compute; lia]|].
  split; [apply Hclosed; [cbn; lia | reflexivity]|].
  apply Hcall; [cbn; lia | vm_compute; discriminate|].
  intros [_ Hd]. discriminate Hd.
Defined.

(** C10: [Add(0)] on a new counter closes the done channel at once: the
    call returns, [Wait] no longer blocks and a receive from [DoneChan]
    proceeds, although the counter was never positive.  Before the call
    both block. *)
Theorem Add_zero_fires :
  Add NewWaitGroupChan 0 = ({| n := 0; done := Closed |}, Ok tt) /\
  Wait (fst (Add NewWaitGroupChan 0)) = Returns /\
  recv (DoneChan (fst (Add NewWaitGroupChan 0))) = Returns /\
  Wait NewWaitGroupChan = Blocks /\
  recv (DoneChan NewWaitGroupChan) = Blocks.
Proof. vm_compute. repeat split; reflexivity. Qed.

End WaitGroupChanFacts.

(** ** AtomicValue *)

Section AtomicValueFacts.
Context `{Go.Runtime} {T : Type} `{!Go.GoType T}.
Import AtomicValue.

Lemma Store_returns (a : t) (x : T) : returned (Store a x) = storable a x.
Proof.
  unfold Store, storable, atomic.Store.
  destruct (Go.to_any x) as [d|]; [|reflexivity].
  destruct (v a) as [c|]; [|reflexivity].
  destruct (decide (Go.type_of c = Go.type_of d)) as [e|ne].
  - rewrite (bool_decide_eq_true_2 _ e). reflexivity.
  - rewrite (bool_decide_eq_false_2 _ ne). reflexivity.
Qed.

Lemma Store_Ok (a a' : t) (x : T) :
  Store a x = Ok a' -> holds a' x.
Proof.
  unfold Store, atomic.Store, holds.
  destruct (Go.to_any x) as [d|]; [|discriminate].
  destruct (v a) as [c|].
  - destruct (decide _); [|discriminate].
    intros [= <-]. cbn. split; [reflexivity | discriminate].
  - intros [= <-]. cbn. split; [reflexivity | discriminate].
Qed.

Lemma LoadOk_holds (a : t) (x : T) : holds a x -> LoadOk a = Ok (x, true).
Proof.
  intros [Hv Hn]. unfold LoadOk, atomic.Load.
  destruct (v a) as [d|] eqn:Hd; [|contradiction].
  rewrite (Go.assert_to_any x d (eq_sym Hv)). reflexivity.
Qed.

Lemma Load_holds (a : t) (x : T) : holds a x -> Load a = Ok x.
Proof. intros Hh. unfold Load. rewrite (LoadOk_holds a x Hh). reflexivity. Qed.

Lemma LoadOk_empty : LoadOk (T := T) empty = Ok (Go.zero, false).
Proof. reflexivity. Qed.

Lemma Load_empty : Load (T := T) empty = Ok Go.zero.
Proof. reflexivity. Qed.

(** Every value of a type that is not an interface type can be stored
    into a value that is empty or holds a [T]. *)
Lemma concrete_storable (ty : Go.rtype) (a : t) (x : T) :
  Go.concrete T ty -> wf a -> storable a x = true.
Proof.
  intros Hc Hwf. unfold storable.
  destruct (Hc x) as (d & -> & Hd).
  destruct Hwf as [-> | (y & Hy & _)]; [reflexivity|].
  rewrite Hy. destruct (Hc y) as (c & -> & Hcy).
  apply bool_decide_eq_true. congruence.
Qed.

Lemma wf_Load_returns (a : t) : wf a -> exists x : T, Load a = Ok x.
Proof.
  intros [-> | (x & Hx)].
  - exists Go.zero. apply Load_empty.
  - exists x. apply Load_holds, Hx.
Qed.

Lemma returned_Ok {A : Type} (r : result A) :
  returned r = true -> exists res : A, r = Ok res.
Proof. destruct r as [res|msg]; [exists res; reflexivity | discriminate]. Qed.

Lemma holds_wf (a : t) (x : T) : holds a x -> wf a.
Proof. intros Hh. right. exists x. exact Hh. Qed.

(** A [Store] that [atomic.Value] accepts returns. *)
Lemma Store_storable (a : t) (x : T) :
  storable a x = true -> exists a' : t, Store a x = Ok a' /\ holds a' x.
Proof.
  intros Hok. rewrite <- Store_returns in Hok.
  destruct (returned_Ok _ Hok) as [a' Ha']. exists a'.
  split; [exact Ha' | exact (Store_Ok _ _ _ Ha')].
Qed.

(** C4, amended: for every [x] that [atomic.Value] accepts (it converts to
    an interface value that is not nil and has the dynamic type of the
    value held, if one is held), [Store(x)] returns, and after it [Load]
    returns [x] and [LoadOk] returns [(x, true)].  Every [x] of a [T] that
    is not an interface type is accepted.  On a value never stored to,
    [Load] returns the zero value of [T] and [LoadOk] returns
    [(zero, false)]. *)
Theorem Store_then_Load (a : t) (x : T) :
  (storable a x = true ->
     exists a' : t,
       Store a x = Ok a' /\ Load a' = Ok x /\ LoadOk a' = Ok (x, true)) /\
  (forall ty : Go.rtype, Go.concrete T ty -> wf a -> storable a x = true) /\
  Load (T := T) empty = Ok Go.zero /\
  LoadOk (T := T) empty = Ok (Go.zero, false).
Proof.
  split; [|split; [|split]].
  - intros Hok. destruct (Store_storable a x Hok) as (a' & Hs & Hh).
    exists a'. split; [exact Hs|].
    split; [apply Load_holds | apply LoadOk_holds]; exact Hh.
  - intros ty. apply concrete_storable.
  - apply Load_empty.
  - apply LoadOk_empty.
Qed.

Lemma Swap_Ok (a a' : t) (x old : T) :
  Swap a x = Ok (old, a') -> Load a = Ok old /\ holds a' x.
Proof.
  unfold Swap, atomic.Swap, Load, LoadOk, atomic.Load, holds.
  destruct (Go.to_any x) as [d|] eqn:Hx; [|discriminate].
  destruct (v a) as [c|].
  - destruct (decide _); [|discriminate]. cbn.
    destruct (Go.assert_T c) as [o|]; [|discriminate].
    intros [= <- <-]. cbn. split; [reflexivity|]. split; [auto | discriminate].
  - cbn. intros [= <- <-]. cbn. split; [reflexivity|]. split; [auto | discriminate].
Qed.

Lemma Swap_returns (a : t) (x : T) :
  wf a -> returned (Swap a x) = storable a x.
Proof.
  intros Hwf. unfold Swap, storable, atomic.Swap.
  destruct (Go.to_any x) as [d|]; [|reflexivity].
  destruct Hwf as [-> | (y & Hy & Hn)]; [reflexivity|].
  destruct (v a) as [c|] eqn:Hc; [|contradiction].
  destruct (decide (Go.type_of c = Go.type_of d)) as [e|ne].
  - rewrite (bool_decide_eq_true_2 _ e). cbn.
    rewrite (Go.assert_to_any y c (eq_sym Hy)). reflexivity.
  - rewrite (bool_decide_eq_false_2 _ ne). reflexivity.
Qed.

(** A [Swap] that [atomic.Value] accepts returns, on a value that is empty
    or holds a [T]. *)
Lemma Swap_storable (a : t) (x : T) :
  wf a -> storable a x = true ->
  exists (old : T) (a' : t),
    Swap a x = Ok (old, a') /\ Load a = Ok old /\ holds a' x.
Proof.
  intros Hwf Hok. rewrite <- (Swap_returns a x Hwf) in Hok.
  destruct (returned_Ok _ Hok) as [[old a'] Hs]. exists old, a'.
  split; [exact Hs | exact (Swap_Ok _ _ _ _ Hs)].
Qed.

(** C5, amended: on a value that is empty or holds a [T], and for every
    [x] that [atomic.Value] accepts (it converts to an interface value
    that is not nil and has the dynamic type of the value held, if one is
    held), [Swap(x)] returns what [Load] reported just before the call,
    the zero value of [T] on a value never stored to, and a [Load] after
    it returns [x].  Every [x] of a [T] that is not an interface type is
    accepted. *)
Theorem Swap_previous (a : t) (x : T) :
  (wf a -> storable a x = true ->
     exists (old : T) (a' : t),
       Swap a x = Ok (old, a') /\ Load a = Ok old /\ Load a' = Ok x) /\
  (storable empty x = true ->
     exists a' : t, Swap empty x = Ok (Go.zero, a') /\ Load a' = Ok x) /\
  (forall ty : Go.rtype, Go.concrete T ty -> wf a -> storable a x = true).
Proof.
  split; [|split].
  - intros Hwf Hok.
    destruct (Swap_storable a x Hwf Hok) as (old & a' & Hs & Hl & Hh).
    exists old, a'. split; [exact Hs|].
    split; [exact Hl | apply Load_holds, Hh].
  - intros Hok.
    destruct (Swap_storable empty x (or_introl eq_refl) Hok)
      as (old & a' & Hs & Hl & Hh).
    rewrite Load_empty in Hl. injection Hl as <-.
    exists a'. split; [exact Hs | apply Load_holds, Hh].
  - intros ty. apply concrete_storable.
Qed.

Lemma CompareAndSwap_empty_concrete (ty : Go.rtype) (oldV newV : T) :
  Go.concrete T ty ->
  CompareAndSwap empty oldV newV = Ok (false, empty).
Proof.
  intros Hc. unfold CompareAndSwap, atomic.CompareAndSwap.
  destruct (Hc newV) as (nd & -> & Hn).
  destruct (Hc oldV) as (od & -> & Ho).
  rewrite bool_decide_eq_true_2 by congruence.
  reflexivity.
Qed.

(** On a value that holds [cur], a [CompareAndSwap] that returns has
    compared [cur] with [oldV] by [==]: it reports [true] and holds
    [newV] when they are equal, reports [false] and changes nothing when
    they are not. *)
Lemma CompareAndSwap_stored (a a' : t) (cur oldV newV : T) (swapped : bool) :
  holds a cur ->
  CompareAndSwap a oldV newV = Ok (swapped, a') ->
  Go.eq_T cur oldV = Ok swapped /\
  (if swapped then holds a' newV else a' = a).
Proof.
  intros [Hv Hn]. unfold CompareAndSwap, atomic.CompareAndSwap, Go.eq_T.
  destruct (Go.to_any newV) as [nd|] eqn:Hnew; [|discriminate].
  match goal with |- context [if ?b then _ else _] => destruct b end;
    [|discriminate].
  rewrite <- Hv.
  destruct a as [[c|]]; cbn [v] in *; [|contradiction].
  destruct (decide _); [|discriminate].
  destruct (Go.iface_eq (Some c) (Go.to_any oldV)) as [[|]|];
    cbn [rbind fst snd]; [| |discriminate]; intros [= <- <-].
  - split; [reflexivity|]. unfold holds. cbn [v].
    split; [auto | discriminate].
  - split; reflexivity.
Qed.

End AtomicValueFacts.

Section AtomicValueRuns.
Import AtomicValue.

Lemma int_concrete : Go.concrete Z Demo.TInt.
Proof. intros x. exists (Demo.VInt x). split; reflexivity. Qed.

Lemma Store_then_Load_witness :
  (exists a' : t,
     Store (T := Z) empty 7 = Ok a' /\ Load a' = Ok 7 /\
     LoadOk a' = Ok (7, true)) /\
  storable (T := Z) (mk (Go.to_any (T := Z) 1)) 7 = true.
Proof.
  destruct (Store_then_Load (T := Z) empty 7) as (Hl & _).
  split; [apply Hl; reflexivity|].
  destruct (Store_then_Load (T := Z) (mk (Go.to_any (T := Z) 1)) 7)
    as (_ & Hc & _).
  apply (Hc Demo.TInt int_concrete). right. exists 1.
  split; [reflexivity | discriminate].
Defined.

Lemma Swap_previous_witness :
  (exists (old : Z) (a' : t),
     Swap (T := Z) (mk (Go.to_any (T := Z) 3)) 4 = Ok (old, a') /\
     Load (T := Z) (mk (Go.to_any (T := Z) 3)) = Ok old /\
     Load a' = Ok 4) /\
  (exists a' : t,
     Swap (T := Z) empty 4 = Ok (Go.zero, a') /\ Load a' = Ok 4).
Proof.
  destruct (Swap_previous (T := Z) (mk (Go.to_any (T := Z) 3)) 4)
    as (Hs & He & _).
  split.
  - apply Hs; [|reflexivity]. right. exists 3.
    split; [reflexivity | discriminate].
  - apply He. reflexivity.
Defined.

(** C4 as stated fails: with [any] for [T], [Store(nil)] on a new value
    does not return, so no [Load] after it returns [nil]. *)
Lemma Store_nil_does_not_return :
  returned (Store (T := option Demo.value) empty None) = false /\
  ~ (exists a' : t,
       Store (T := option Demo.value) empty None = Ok a' /\
       Load a' = Ok None).
Proof.
  split; [reflexivity|]. intros (a' & Hs & _). discriminate Hs.
Qed.

(** C5 as stated fails: with [any] for [T], [Swap(nil)] on a new value
    does not return the previous value, it panics. *)
Lemma Swap_nil_does_not_return :
  returned (Swap (T := option Demo.value) empty None) = false /\
  ~ (exists (old : option Demo.value) (a' : t),
       Swap (T := option Demo.value) empty None = Ok (old, a')).
Proof.
  split; [reflexivity|]. intros (old & a' & Hs). discriminate Hs.
Qed.

(** Where [Store] does not return: with an interface type for [T], the nil
    interface is refused by [atomic.Value], and so is a value of another
    dynamic type than the one held. *)
Lemma Store_interface_panics :
  returned (Store (T := option Demo.value) empty None) = false /\
  returned (Store (T := option Demo.value)
              (mk (Some (Demo.VInt 1))) (Some (Demo.VString "a"))) = false.
Proof. vm_compute. split; reflexivity. Qed.

(** C3: [CompareAndSwap(old, new)] swaps iff the value at the call
    equals [old], the empty state counting as the zero value that [Load]
    reports for it.  The code misses that case: on a new
    [AtomicValue[int]], [Load] returns [0] and [0 == 0], but
    [CompareAndSwap(0, 1)] returns [false] and stores nothing. *)
Theorem CompareAndSwap_empty_zero :
  Load (T := Z) empty = Ok 0 /\
  Go.eq_T (T := Z) 0 0 = Ok true /\
  CompareAndSwap (T := Z) empty 0 1 = Ok (false, empty) /\
  Swap (T := Z) empty 1 = Ok (0, (mk (Go.to_any (T := Z) 1))).
Proof. vm_compute. repeat split; reflexivity. Qed.

End AtomicValueRuns.

(** ** Semaphore *)

Section SemaphoreFacts.
Import Semaphore.

Lemma NewSemaphore_Ok (N : Z) (s : t) :
  NewSemaphore N = Ok s -> 0 <= N /\ s = {| cap := N; len := 0 |}.
Proof.
  unfold NewSemaphore. destruct (N <? 0) eqn:HN; [discriminate|].
  apply Z.ltb_ge in HN. intros [= <-]. split; [exact HN | reflexivity].
Qed.

Lemma NewSemaphore_in_bounds (N : Z) (s : t) :
  NewSemaphore N = Ok s -> cap s = N /\ in_bounds s.
Proof.
  intros Hs. apply NewSemaphore_Ok in Hs as [HN ->].
  unfold in_bounds. cbn. lia.
Qed.

Lemma step_in_bounds (s s' : t) (o : op) :
  step s o = Some s' -> in_bounds s -> cap s' = cap s /\ in_bounds s'.
Proof.
  unfold in_bounds.
  destruct o as [|pick ctx| |]; cbn [step];
    unfold Acquire, AcquireContext, TryAcquire, Release, can_send, can_recv.
  - destruct (len s <? cap s) eqn:Hl; [|discriminate].
    apply Z.ltb_lt in Hl. intros [= <-]. cbn. lia.
  - destruct (len s <? cap s) eqn:Hl, (cancelled ctx), pick;
      try discriminate; intros [= <-]; cbn;
      try apply Z.ltb_lt in Hl; lia.
  - destruct (len s <? cap s) eqn:Hl; intros [= <-]; cbn;
      try apply Z.ltb_lt in Hl; lia.
  - destruct (0 <? len s) eqn:Hl; [|discriminate].
    apply Z.ltb_lt in Hl. intros [= <-]. cbn. lia.
Qed.

Lemma run_in_bounds (os : list op) :
  forall s s' : t,
    run s os = Some s' -> in_bounds s -> cap s' = cap s /\ in_bounds s'.
Proof.
  induction os as [|o os IH]; intros s s'; cbn [run].
  - intros [= <-] Hb. split; [reflexivity | exact Hb].
  - destruct (step s o) as [s1|] eqn:Hstep; [|discriminate].
    intros Hrun Hb.
    destruct (step_in_bounds s s1 o Hstep Hb) as [Hc1 Hb1].
    destruct (IH s1 s' Hrun Hb1) as [Hc' Hb'].
    split; [congruence | exact Hb'].
Qed.

Lemma TryAcquire_cases (s : t) :
  (occupied s < cap s /\ TryAcquire s = (true, send s)) \/
  (cap s <= occupied s /\ TryAcquire s = (false, s)).
Proof.
  unfold TryAcquire, can_send, occupied.
  destruct (len s <? cap s) eqn:Hl.
  - left. apply Z.ltb_lt in Hl. split; [exact Hl | reflexivity].
  - right. apply Z.ltb_ge in Hl. split; [exact Hl | reflexivity].
Qed.

(** C8: on a semaphore made with capacity [N], after any sequence of
    completed [Acquire], [AcquireContext], [TryAcquire] and [Release]
    operations the occupied count is in [[0, N]]; [TryAcquire] returns
    [true] iff the occupied count is below [N], then claiming one slot,
    and otherwise returns [false] and changes nothing.  With [N = 2]:
    two [TryAcquire] return [true], a third returns [false], and after
    one [Release] a [TryAcquire] returns [true] again. *)
Theorem occupied_bounded (N : Z) (s0 s : t) (os : list op) :
  NewSemaphore N = Ok s0 ->
  run s0 os = Some s ->
  (0 <= occupied s <= N) /\
  (fst (TryAcquire s) = true <-> occupied s < N) /\
  (fst (TryAcquire s) = true ->
     occupied (snd (TryAcquire s)) = occupied s + 1) /\
  (fst (TryAcquire s) = false -> snd (TryAcquire s) = s) /\
  (exists s2 : t,
     NewSemaphore 2 = Ok s2 /\
     TryAcquire s2 = (true, send s2) /\
     TryAcquire (send s2) = (true, send (send s2)) /\
     TryAcquire (send (send s2)) = (false, send (send s2)) /\
     Release (send (send s2)) = Some (send s2) /\
     TryAcquire (send s2) = (true, send (send s2))).
Proof.
  intros Hnew Hrun.
  destruct (NewSemaphore_in_bounds N s0 Hnew) as [Hcap0 Hb0].
  destruct (run_in_bounds os s0 s Hrun Hb0) as [Hcap Hb].
  unfold in_bounds in Hb. rewrite Hcap, Hcap0 in Hb.
  assert (HN : cap s = N) by congruence.
  split; [exact Hb|].
  destruct (TryAcquire_cases s) as [[Hlt ->] | [Hge ->]]; cbn [fst snd].
  - split; [split; [lia | reflexivity]|].
    split; [intros _; unfold occupied, send; cbn; reflexivity|].
    split; [discriminate|].
    exists {| cap := 2; len := 0 |}. vm_compute. repeat split; reflexivity.
  - split; [split; [discriminate | lia]|].
    split; [discriminate|].
    split; [reflexivity|].
    exists {| cap := 2; len := 0 |}. vm_compute. repeat split; reflexivity.
Qed.

Lemma occupied_bounded_witness :
  0 <= occupied {| cap := 2; len := 1 |} <= 2 /\
  fst (TryAcquire {| cap := 2; len := 1 |}) = true.
Proof.
  destruct (occupied_bounded 2 {| cap := 2; len := 0 |}
              {| cap := 2; len := 1 |}
              [OTryAcquire; OAcquire; ORelease])
    as (Hb & Ht & _); [reflexivity | reflexivity |].
  split; [exact Hb|]. apply Ht. vm_compute. reflexivity.
Defined.

(** C9: on a fully occupied semaphore, [AcquireContext] with a context
    that is already cancelled returns [false] and acquires nothing; and
    whenever [AcquireContext] returns, it returns [true] iff it has
    claimed a slot, leaving the semaphore as it was otherwise. *)
Theorem AcquireContext_cancelled (pick_send : bool) (s : t) (ctx : Context) :
  (occupied s = cap s -> cancelled ctx = true ->
     AcquireContext pick_send s ctx = Some (false, s)) /\
  (forall (b : bool) (s' : t),
     AcquireContext pick_send s ctx = Some (b, s') ->
     (b = true <-> occupied s' = occupied s + 1) /\
     (b = false <-> s' = s) /\
     cap s' = cap s).
Proof.
  unfold AcquireContext, can_send, occupied. split.
  - intros Hfull ->.
    rewrite (proj2 (Z.ltb_ge (len s) (cap s))) by lia. reflexivity.
  - intros b s'.
    destruct (len s <? cap s), (cancelled ctx), pick_send;
      try discriminate; intros [= <- <-]; cbn;
      (split; [|split; [|reflexivity]]); split;
      try reflexivity; try discriminate; try lia;
      destruct s as [c l]; cbn; intros [= Hl]; lia.
Qed.

Lemma AcquireContext_cancelled_witness :
  AcquireContext true {| cap := 2; len := 2 |} {| cancelled := true |} =
    Some (false, {| cap := 2; len := 2 |}) /\
  occupied {| cap := 2; len := 1 |} = occupied {| cap := 2; len := 0 |} + 1.
Proof.
  destruct (AcquireContext_cancelled true {| cap := 2; len := 2 |}
              {| cancelled := true |}) as [Hfull _].
  split; [apply Hfull; reflexivity|].
  destruct (AcquireContext_cancelled true {| cap := 2; len := 0 |}
              {| cancelled := true |}) as [_ Hret].
  destruct (Hret true {| cap := 2; len := 1 |}) as ([Hacq _] & _);
    [reflexivity|].
  apply Hacq. reflexivity.
Defined.

End SemaphoreFacts.

(** ** Map *)

Section MapFacts.
Context `{Countable K} {V : Type} (zero : V).
Import Map.

Implicit Types (mp : Map.t K V) (key : K) (value : V).

(** Indexing reads the entries. *)
Lemma index_entries (mm : option (gmap K V)) key :
  index zero mm key =
    match entries {| m := mm |} !! key with
    | Some value => (value, true)
    | None => (zero, false)
    end.
Proof.
  unfold index, entries. cbn [m]. destruct mm as [g|]; [reflexivity|].
  rewrite lookup_empty. reflexivity.
Qed.

Lemma Load_entries mp key :
  Load zero mp key =
    match entries mp !! key with
    | Some value => (value, true)
    | None => (zero, false)
    end.
Proof. destruct mp as [mm]. apply index_entries. Qed.

Lemma entries_mak_Set (mm : option (gmap K V)) key value :
  entries {| m := mak_Set mm key value |} =
    <[key := value]> (entries {| m := mm |}).
Proof. destruct mm; reflexivity. Qed.

Lemma entries_godelete (mm : option (gmap K V)) key :
  entries {| m := godelete mm key |} = delete key (entries {| m := mm |}).
Proof.
  destruct mm as [g|]; cbn; [reflexivity|].
  symmetry. apply delete_empty.
Qed.

Lemma index_present mp key value :
  entries mp !! key = Some value -> index zero (m mp) key = (value, true).
Proof. intros He. fold (Load zero mp key). rewrite Load_entries, He. reflexivity. Qed.

Lemma index_absent mp key :
  entries mp !! key = None -> index zero (m mp) key = (zero, false).
Proof. intros He. fold (Load zero mp key). rewrite Load_entries, He. reflexivity. Qed.



End MapFacts.

Section MapRuns.
Import Map.



End MapRuns.

(** * Further properties *)

(** ** AtomicValue: what the operations keep *)

Section AtomicValueMore.
Context `{Go.Runtime} {T : Type} `{!Go.GoType T}.
Import AtomicValue.

Lemma CompareAndSwap_Ok_state (a a' : t) (oldV newV : T) (swapped : bool) :
  CompareAndSwap a oldV newV = Ok (swapped, a') ->
  if swapped then holds a' newV else a' = a.
Proof.
  unfold CompareAndSwap, atomic.CompareAndSwap.
  destruct (Go.to_any newV) as [nd|] eqn:Hnew; [|discriminate].
  match goal with |- context [if ?b then _ else _] => destruct b end;
    [|discriminate].
  destruct a as [[c|]]; cbn [v].
  - destruct (decide _); [|discriminate].
    destruct (Go.iface_eq (Some c) (Go.to_any oldV)) as [[|]|];
      cbn [rbind fst snd]; [| |discriminate]; intros [= <- <-].
    + unfold holds. cbn [v]. split; [auto | discriminate].
    + reflexivity.
  - destruct (Go.to_any oldV); cbn [rbind fst snd]; intros [= <- <-].
    + reflexivity.
    + unfold holds. cbn [v]. split; [auto | discriminate].
Qed.

(** On a value never stored to, a [CompareAndSwap] that returns has
    swapped iff [oldV] converts to the nil interface: it then holds
    [newV], and otherwise stays empty. *)
Theorem CompareAndSwap_empty (a' : t) (oldV newV : T) (swapped : bool) :
  CompareAndSwap empty oldV newV = Ok (swapped, a') ->
  (swapped = true <-> Go.to_any oldV = None) /\
  (if swapped then holds a' newV else a' = empty).
Proof.
  intros Hcas. split; [|exact (CompareAndSwap_Ok_state _ _ _ _ _ Hcas)].
  revert Hcas. unfold CompareAndSwap, atomic.CompareAndSwap.
  destruct (Go.to_any newV) as [nd|]; [|discriminate].
  match goal with |- context [if ?b then _ else _] => destruct b end;
    [|discriminate].
  cbn [v empty].
  destruct (Go.to_any oldV); cbn [rbind fst snd]; intros [= <- <-];
    split; try reflexivity; discriminate.
Qed.

(** A value that is empty or holds a [T] stays so under every [Store],
    [Swap] and [CompareAndSwap] that returns, and on such a value [LoadOk]
    never panics: it reports [false] exactly on the empty value, and then
    returns the zero value. *)
Theorem wf_kept (a : t) (x y : T) :
  wf a ->
  (forall a' : t, Store a x = Ok a' -> wf a') /\
  (forall (old : T) (a' : t), Swap a x = Ok (old, a') -> wf a') /\
  (forall (swapped : bool) (a' : t),
     CompareAndSwap a x y = Ok (swapped, a') -> wf a') /\
  (exists (r : T) (ok : bool),
     LoadOk a = Ok (r, ok) /\
     (ok = false <-> a = empty) /\
     (ok = false -> r = Go.zero)).
Proof.
  intros Hwf. split; [|split; [|split]].
  - intros a' Hs. right. exists x. exact (Store_Ok _ _ _ Hs).
  - intros old a' Hs. right. exists x. exact (proj2 (Swap_Ok _ _ _ _ Hs)).
  - intros [|] a' Hs; apply CompareAndSwap_Ok_state in Hs.
    + right. exists y. exact Hs.
    + rewrite Hs. exact Hwf.
  - destruct Hwf as [-> | (z & Hz)].
    + exists Go.zero, false. rewrite LoadOk_empty.
      split; [reflexivity|]. split; [split; reflexivity | reflexivity].
    + exists z, true. rewrite (LoadOk_holds a z Hz).
      split; [reflexivity|]. split; [|discriminate].
      split; [discriminate|].
      intros ->. destruct Hz as [_ Hn]. contradiction.
Qed.

(** No operation empties a value: once something is held, something is
    held after every [Store], [Swap] and [CompareAndSwap] that returns. *)
Theorem never_emptied (a : t) (x y : T) :
  v a <> None ->
  (forall a' : t, Store a x = Ok a' -> v a' <> None) /\
  (forall (old : T) (a' : t), Swap a x = Ok (old, a') -> v a' <> None) /\
  (forall (swapped : bool) (a' : t),
     CompareAndSwap a x y = Ok (swapped, a') -> v a' <> None).
Proof.
  intros Hne. split; [|split].
  - intros a' Hs. exact (proj2 (Store_Ok _ _ _ Hs)).
  - intros old a' Hs. exact (proj2 (proj2 (Swap_Ok _ _ _ _ Hs))).
  - intros [|] a' Hs; apply CompareAndSwap_Ok_state in Hs.
    + exact (proj2 Hs).
    + rewrite Hs. exact Hne.
Qed.

(** For a [T] that is not an interface type, on a value that is empty or
    holds a [T]: [Store(x); Swap(y); Swap(z)] all return, the two swaps
    return [x] and then [y], and [z] is what is loaded at the end. *)
Theorem Store_Swap_chain (ty : Go.rtype) (a : t) (x y z : T) :
  Go.concrete T ty -> wf a ->
  exists a1 a2 a3 : t,
    Store a x = Ok a1 /\
    Swap a1 y = Ok (x, a2) /\
    Swap a2 z = Ok (y, a3) /\
    Load a3 = Ok z.
Proof.
  intros Hc Hwf.
  destruct (Store_storable a x (concrete_storable ty a x Hc Hwf))
    as (a1 & Hs & Hh1).
  pose proof (holds_wf a1 x Hh1) as Hwf1.
  destruct (Swap_storable a1 y Hwf1 (concrete_storable ty a1 y Hc Hwf1))
    as (o1 & a2 & Hs1 & Hl1 & Hh2).
  rewrite (Load_holds a1 x Hh1) in Hl1. injection Hl1 as <-.
  pose proof (holds_wf a2 y Hh2) as Hwf2.
  destruct (Swap_storable a2 z Hwf2 (concrete_storable ty a2 z Hc Hwf2))
    as (o2 & a3 & Hs2 & Hl2 & Hh3).
  rewrite (Load_holds a2 y Hh2) in Hl2. injection Hl2 as <-.
  exists a1, a2, a3.
  split; [exact Hs|]. split; [exact Hs1|]. split; [exact Hs2|].
  exact (Load_holds a3 z Hh3).
Qed.

End AtomicValueMore.

Section AtomicValueMoreRuns.
Import AtomicValue.

Lemma CompareAndSwap_stored_witness :
  Go.eq_T (T := Z) 3 3 = Ok true /\
  holds (T := Z) (mk (Go.to_any (T := Z) 4)) 4.
Proof.
  apply (CompareAndSwap_stored (T := Z) (mk (Go.to_any (T := Z) 3))
           (mk (Go.to_any (T := Z) 4)) 3 3 4 true).
  - split; [reflexivity | discriminate].
  - reflexivity.
Defined.

Lemma CompareAndSwap_empty_witness :
  (true = true <-> Go.to_any (T := option Demo.value) None = None) /\
  holds (T := option Demo.value) (mk (Go.to_any (T := option Demo.value) (Some (Demo.VInt 1)))) (Some (Demo.VInt 1)).
Proof.
  apply (CompareAndSwap_empty (T := option Demo.value)
           (mk (Go.to_any (T := option Demo.value) (Some (Demo.VInt 1)))) None (Some (Demo.VInt 1)) true).
  reflexivity.
Defined.

Lemma wf_kept_witness :
  wf (T := Z) (mk (Go.to_any (T := Z) 5)) /\
  exists (r : Z) (ok : bool),
    LoadOk (T := Z) empty = Ok (r, ok) /\
    (ok = false <-> empty = empty) /\ (ok = false -> r = Go.zero).
Proof.
  destruct (wf_kept (T := Z) empty 5 6) as (Hs & _ & _ & Hl).
  - left. reflexivity.
  - split; [apply Hs; reflexivity | exact Hl].
Defined.

Lemma never_emptied_witness :
  v (mk (Go.to_any (T := Z) 2)) <> None /\ v (mk (Go.to_any (T := Z) 1)) <> None.
Proof.
  destruct (never_emptied (T := Z) (mk (Go.to_any (T := Z) 1)) 2 3)
    as (Hs & _ & Hc).
  - discriminate.
  - split; [apply Hs; reflexivity|].
    apply (Hc false). reflexivity.
Defined.

Lemma Store_Swap_chain_witness :
  exists a1 a2 a3 : t,
    Store (T := Z) empty 1 = Ok a1 /\
    Swap a1 2 = Ok (1, a2) /\
    Swap a2 3 = Ok (2, a3) /\
    Load a3 = Ok 3.
Proof.
  eapply (Store_Swap_chain (T := Z)); [exact int_concrete|].
  left. reflexivity.
Defined.

End AtomicValueMoreRuns.

(** ** WaitGroupChan: counting down *)

Section WaitGroupChanMore.
Import WaitGroupChan.

Lemma wrap64_add_r (a b : Z) : wrap64 (a + wrap64 b) = wrap64 (a + b).
Proof.
  unfold wrap64. f_equal.
  replace (a + ((b + 2 ^ 63) mod 2 ^ 64 - 2 ^ 63) + 2 ^ 63)
    with (a + (b + 2 ^ 63) mod 2 ^ 64) by lia.
  rewrite Zplus_mod_idemp_r. f_equal. lia.
Qed.

Lemma wrap64_add_l (a b : Z) : wrap64 (wrap64 a + b) = wrap64 (a + b).
Proof. rewrite (Z.add_comm (wrap64 a)), wrap64_add_r. f_equal. lia. Qed.

Lemma AddInt64_exact (m d : Z) :
  - 2 ^ 63 <= m + d < 2 ^ 63 -> AddInt64 m (int64_of_int d) = m + d.
Proof.
  intros Hr. unfold AddInt64, int64_of_int.
  rewrite wrap64_add_r. apply wrap64_small, Hr.
Qed.

Lemma run_app (cs1 cs2 : list call) :
  forall wg : t,
    snd (run wg cs1) = Ok tt ->
    run wg (cs1 ++ cs2) = run (fst (run wg cs1)) cs2.
Proof.
  induction cs1 as [|c cs1 IH]; intros wg; cbn [run app].
  - reflexivity.
  - destruct (do_call wg c) as [wg' [[]|msg]]; cbn [fst snd].
    + apply IH.
    + discriminate.
Qed.

Lemma run_Decr_open (j : nat) :
  forall m : Z,
    Z.of_nat j < m < 2 ^ 63 ->
    run {| n := m; done := Open |} (repeat CDecr j) =
      ({| n := m - Z.of_nat j; done := Open |}, Ok tt).
Proof.
  induction j as [|j IH]; intros m Hm.
  - cbn [repeat run]. rewrite Z.sub_0_r. reflexivity.
  - cbn [repeat run do_call]. unfold Decr. rewrite Add_cases. cbv zeta.
    cbn [n done]. rewrite AddInt64_exact by lia.
    destruct (m + -1 =? 0) eqn:Hz; [apply Z.eqb_eq in Hz; lia|].
    rewrite IH by lia. do 2 f_equal. lia.
Qed.

(** [Add(k)] on a new counter followed by [Decr] calls: while fewer than
    [k] of them have been made the done channel is open and [Wait] blocks;
    the [k]-th closes it, without a panic, and [Wait] returns. *)
Theorem countdown (k : nat) :
  (0 < k)%nat -> Z.of_nat k < 2 ^ 63 ->
  (forall j : nat, (j < k)%nat ->
     run NewWaitGroupChan (CAdd (Z.of_nat k) :: repeat CDecr j) =
       ({| n := Z.of_nat k - Z.of_nat j; done := Open |}, Ok tt) /\
     Wait (fst (run NewWaitGroupChan (CAdd (Z.of_nat k) :: repeat CDecr j))) =
       Blocks) /\
  run NewWaitGroupChan (CAdd (Z.of_nat k) :: repeat CDecr k) =
    ({| n := 0; done := Closed |}, Ok tt) /\
  Wait (fst (run NewWaitGroupChan (CAdd (Z.of_nat k) :: repeat CDecr k))) =
    Returns.
Proof.
  intros Hk Hmax.
  assert (Hadd : do_call NewWaitGroupChan (CAdd (Z.of_nat k)) =
                 ({| n := Z.of_nat k; done := Open |}, Ok tt)).
  { cbn [do_call]. rewrite Add_cases. cbv zeta.
    cbn [n done NewWaitGroupChan]. rewrite AddInt64_exact by lia.
    destruct (0 + Z.of_nat k =? 0) eqn:Hz; [apply Z.eqb_eq in Hz; lia|].
    reflexivity. }
  assert (Hopen : forall j : nat, (j < k)%nat ->
            run NewWaitGroupChan (CAdd (Z.of_nat k) :: repeat CDecr j) =
              ({| n := Z.of_nat k - Z.of_nat j; done := Open |}, Ok tt)).
  { intros j Hj. cbn [run]. rewrite Hadd. apply run_Decr_open. lia. }
  split.
  - intros j Hj. rewrite (Hopen j Hj). split; reflexivity.
  - destruct k as [|k']; [lia|].
    assert (Hlast : run NewWaitGroupChan
                      (CAdd (Z.of_nat (S k')) :: repeat CDecr (S k')) =
                    ({| n := 0; done := Closed |}, Ok tt)).
    { change (repeat CDecr (S k')) with (CDecr :: repeat CDecr k').
      rewrite repeat_cons, app_comm_cons.
      rewrite run_app by (rewrite (Hopen k') by lia; reflexivity).
      rewrite (Hopen k') by lia. cbn [fst run do_call]. unfold Decr.
      rewrite Add_cases. cbv zeta. cbn [n done].
      rewrite AddInt64_exact by lia.
      replace (Z.of_nat (S k') - Z.of_nat k' + -1) with 0 by lia.
      reflexivity. }
    rewrite Hlast. split; reflexivity.
Qed.

Lemma countdown_witness :
  run NewWaitGroupChan [CAdd 3; CDecr; CDecr; CDecr] =
    ({| n := 0; done := Closed |}, Ok tt) /\
  Wait (fst (run NewWaitGroupChan [CAdd 3; CDecr; CDecr])) = Blocks.
Proof.
  destruct (countdown 3) as (Hopen & Hclosed & _); [lia | lia |].
  split; [exact Hclosed|].
  exact (proj2 (Hopen 2%nat ltac:(lia))).
Defined.

(** The done channel is never reopened: after any sequence of calls,
    panicking or not, it is closed iff it was closed before or one of the
    calls left the counter at exactly zero. *)
Theorem done_closed_iff (cs : list call) :
  forall wg : t,
    done (fst (run wg cs)) = Closed <->
    done wg = Closed \/ (1 <= zero_hits (n wg) cs)%nat.
Proof.
  induction cs as [|c cs IH]; intros wg; cbn [run zero_hits].
  - cbn [fst]. split; [intros Hd; left; exact Hd | intros [Hd | Hz]; [exact Hd | lia]].
  - rewrite do_call_Add, Add_cases. cbv zeta.
    destruct (_ =? 0) eqn:Hz.
    + destruct (done wg) eqn:Hd.
      * rewrite IH. cbn [n done]. split; [intros _; right; lia | intros _; left; reflexivity].
      * cbn [fst done]. split; [intros _; left; reflexivity | reflexivity].
    + rewrite IH. cbn [n done]. split; intros [Hd | Hh]; (left; exact Hd) || (right; lia).
Qed.

Lemma done_closed_iff_witness :
  done (fst (run NewWaitGroupChan [CAdd 1; CDecr])) = Closed.
Proof.
  apply (done_closed_iff [CAdd 1; CDecr] NewWaitGroupChan).
  right. vm_compute. lia.
Defined.

(** A sequence of calls that does not panic leaves the counter at the sum
    of the deltas, wrapped to 64 bits. *)
Theorem run_counter (cs : list call) :
  forall wg : t,
    wrap64 (n wg) = n wg ->
    snd (run wg cs) = Ok tt ->
    n (fst (run wg cs)) = wrap64 (n wg + total_delta cs).
Proof.
  induction cs as [|c cs IH]; intros wg Hn; cbn [run total_delta fold_right].
  - intros _. cbn [fst]. rewrite Z.add_0_r. symmetry. exact Hn.
  - rewrite do_call_Add, Add_cases. cbv zeta.
    assert (Hstep : forall d : chan,
              snd (run {| n := AddInt64 (n wg) (int64_of_int (delta_of c));
                          done := d |} cs) = Ok tt ->
              n (fst (run {| n := AddInt64 (n wg) (int64_of_int (delta_of c));
                             done := d |} cs)) =
              wrap64 (n wg + (delta_of c + total_delta cs))).
    { intros d Hrun.
      rewrite IH;
        [| cbn [n]; unfold AddInt64; apply wrap64_small, wrap64_range
         | exact Hrun].
      cbn [n]. unfold AddInt64, int64_of_int. rewrite wrap64_add_l.
      replace (n wg + wrap64 (delta_of c) + total_delta cs)
        with (n wg + total_delta cs + wrap64 (delta_of c)) by lia.
      rewrite wrap64_add_r. f_equal. lia. }
    destruct (_ =? 0); [destruct (done wg)|]; cbn [snd]; try discriminate;
      apply Hstep.
Qed.

Lemma run_counter_witness :
  n (fst (run NewWaitGroupChan [CAdd 5; CDecr; CAdd (-2)])) = wrap64 (0 + 2).
Proof.
  apply (run_counter [CAdd 5; CDecr; CAdd (-2)] NewWaitGroupChan);
    reflexivity.
Defined.

End WaitGroupChanMore.

(** ** Semaphore: blocking and capacity *)

Section SemaphoreMore.
Import Semaphore.

Lemma run_Acquire (k : nat) :
  forall (N l : Z),
    l <= N ->
    run {| cap := N; len := l |} (repeat OAcquire k) =
      if l + Z.of_nat k <=? N
      then Some {| cap := N; len := l + Z.of_nat k |}
      else None.
Proof.
  induction k as [|k IH]; intros N l Hl.
  - cbn [repeat run]. rewrite Z.add_0_r.
    rewrite (proj2 (Z.leb_le l N) Hl). reflexivity.
  - cbn [repeat run step]. unfold Acquire, can_send, send. cbn [cap len].
    destruct (l <? N) eqn:Hlt.
    + apply Z.ltb_lt in Hlt. rewrite IH by lia.
      replace (l + 1 + Z.of_nat k) with (l + Z.of_nat (S k)) by lia.
      reflexivity.
    + apply Z.ltb_ge in Hlt.
      rewrite (proj2 (Z.leb_gt (l + Z.of_nat (S k)) N)) by lia. reflexivity.
Qed.

(** A new semaphore of capacity [N] lets exactly [N] acquisitions through:
    [k] [Acquire] calls in a row all complete iff [k <= N], and they then
    occupy [k] slots; the call after the [N]-th blocks. *)
Theorem acquisitions_up_to_capacity (N : Z) (s0 : t) (k : nat) :
  NewSemaphore N = Ok s0 ->
  (run s0 (repeat OAcquire k) <> None <-> Z.of_nat k <= N) /\
  (Z.of_nat k <= N ->
     run s0 (repeat OAcquire k) = Some {| cap := N; len := Z.of_nat k |}) /\
  (Z.of_nat k = N -> run s0 (repeat OAcquire (S k)) = None).
Proof.
  intros Hnew. apply NewSemaphore_Ok in Hnew as [HN ->].
  split; [|split].
  - rewrite run_Acquire by exact HN. rewrite Z.add_0_l.
    destruct (Z.of_nat k <=? N) eqn:Hk.
    + apply Z.leb_le in Hk. split; [intros _; exact Hk | discriminate].
    + apply Z.leb_gt in Hk. split; [congruence | lia].
  - intros Hk. rewrite run_Acquire by exact HN. rewrite Z.add_0_l.
    rewrite (proj2 (Z.leb_le _ _) Hk). reflexivity.
  - intros Hk. rewrite run_Acquire by exact HN.
    rewrite (proj2 (Z.leb_gt (0 + Z.of_nat (S k)) N)) by lia. reflexivity.
Qed.

Lemma acquisitions_up_to_capacity_witness :
  run {| cap := 2; len := 0 |} [OAcquire; OAcquire] =
    Some {| cap := 2; len := 2 |} /\
  run {| cap := 2; len := 0 |} [OAcquire; OAcquire; OAcquire] = None.
Proof.
  destruct (acquisitions_up_to_capacity 2 {| cap := 2; len := 0 |} 2)
    as (_ & Hok & Hblock); [reflexivity|].
  split; [apply Hok; lia | apply Hblock; reflexivity].
Defined.

(** When the calls block: on a semaphore within its bounds, [Release]
    blocks exactly when no slot is occupied and [Acquire] exactly when all
    are.  So a [Release] on a new semaphore, with no acquisition before
    it, blocks; it does not panic. *)
Theorem blocking_conditions (s : t) :
  in_bounds s ->
  (Release s = None <-> occupied s = 0) /\
  (Acquire s = None <-> occupied s = cap s) /\
  (forall N : Z, NewSemaphore N = Ok s -> Release s = None).
Proof.
  unfold in_bounds, Release, Acquire, can_recv, can_send, occupied.
  intros Hb. split; [|split].
  - destruct (0 <? len s) eqn:Hl.
    + apply Z.ltb_lt in Hl. split; [discriminate | lia].
    + apply Z.ltb_ge in Hl. split; [lia | reflexivity].
  - destruct (len s <? cap s) eqn:Hl.
    + apply Z.ltb_lt in Hl. split; [discriminate | lia].
    + apply Z.ltb_ge in Hl. split; [lia | reflexivity].
  - intros N Hnew. apply NewSemaphore_Ok in Hnew as [_ ->]. reflexivity.
Qed.

Lemma blocking_conditions_witness :
  Release {| cap := 3; len := 0 |} = None /\
  (Acquire {| cap := 3; len := 0 |} = None <->
   occupied {| cap := 3; len := 0 |} = cap {| cap := 3; len := 0 |}).
Proof.
  destruct (blocking_conditions {| cap := 3; len := 0 |}) as (_ & Ha & Hn).
  - unfold in_bounds. cbn. lia.
  - split; [apply (Hn 3); reflexivity | exact Ha].
Defined.

(** [Acquire] and [Release] undo each other: a completed [Acquire]
    followed by [Release] gives the semaphore back as it was, and so does
    a completed [Release] followed by [Acquire]. *)
Theorem Acquire_Release_inverse (s s' : t) :
  in_bounds s ->
  (Acquire s = Some s' -> Release s' = Some s) /\
  (Release s = Some s' -> Acquire s' = Some s).
Proof.
  unfold in_bounds, Release, Acquire, can_recv, can_send, send, recv.
  intros Hb. destruct s as [c l]. cbn [cap len] in *. split.
  - destruct (l <? c) eqn:Hl; [|discriminate]. intros [= <-]. cbn [cap len].
    rewrite (proj2 (Z.ltb_lt 0 (l + 1))) by lia. do 2 f_equal. lia.
  - destruct (0 <? l) eqn:Hl; [|discriminate]. apply Z.ltb_lt in Hl.
    intros [= <-]. cbn [cap len].
    rewrite (proj2 (Z.ltb_lt (l - 1) c)) by lia. do 2 f_equal. lia.
Qed.

Lemma Acquire_Release_inverse_witness :
  Release {| cap := 2; len := 2 |} = Some {| cap := 2; len := 1 |} /\
  Acquire {| cap := 2; len := 0 |} = Some {| cap := 2; len := 1 |}.
Proof.
  split.
  - apply (Acquire_Release_inverse {| cap := 2; len := 1 |}
             {| cap := 2; len := 2 |}); [unfold in_bounds; cbn; lia | reflexivity].
  - apply (Acquire_Release_inverse {| cap := 2; len := 1 |}
             {| cap := 2; len := 0 |}); [unfold in_bounds; cbn; lia | reflexivity].
Defined.

(** The three ways to acquire agree: [TryAcquire] does what [Acquire]
    does when [Acquire] would not block and nothing otherwise, and
    [AcquireContext] with a context that is not cancelled is [Acquire]
    reporting [true]. *)
Theorem acquire_variants_agree (pick_send : bool) (s : t) (ctx : Context) :
  TryAcquire s =
    match Acquire s with
    | Some s' => (true, s')
    | None => (false, s)
    end /\
  (cancelled ctx = false ->
   AcquireContext pick_send s ctx =
     match Acquire s with
     | Some s' => Some (true, s')
     | None => None
     end).
Proof.
  unfold TryAcquire, Acquire, AcquireContext. split.
  - destruct (can_send s); reflexivity.
  - intros ->. destruct (can_send s); reflexivity.
Qed.

Lemma acquire_variants_agree_witness :
  AcquireContext true {| cap := 1; len := 1 |} {| cancelled := false |} =
    match Acquire {| cap := 1; len := 1 |} with
    | Some s' => Some (true, s')
    | None => None
    end.
Proof.
  apply (acquire_variants_agree true {| cap := 1; len := 1 |}
           {| cancelled := false |}). reflexivity.
Defined.

(** With a cancelled context [AcquireContext] never blocks; when a slot is
    free as well, the runtime's choice decides, so the call may take the
    slot and return [true] or leave it and return [false]. *)
Theorem AcquireContext_cancelled_race (s : t) (ctx : Context) :
  cancelled ctx = true ->
  (forall pick_send : bool, AcquireContext pick_send s ctx <> None) /\
  (occupied s < cap s ->
     AcquireContext true s ctx = Some (true, send s) /\
     AcquireContext false s ctx = Some (false, s)).
Proof.
  unfold AcquireContext, can_send, occupied. intros ->. split.
  - intros pick. destruct (len s <? cap s), pick; discriminate.
  - intros Hl. rewrite (proj2 (Z.ltb_lt _ _) Hl). split; reflexivity.
Qed.

Lemma AcquireContext_cancelled_race_witness :
  AcquireContext true {| cap := 1; len := 0 |} {| cancelled := true |} =
    Some (true, {| cap := 1; len := 1 |}) /\
  AcquireContext false {| cap := 1; len := 0 |} {| cancelled := true |} =
    Some (false, {| cap := 1; len := 0 |}).
Proof.
  destruct (AcquireContext_cancelled_race {| cap := 1; len := 0 |}
              {| cancelled := true |}) as [_ Hrace]; [reflexivity|].
  apply Hrace. cbn. lia.
Defined.

End SemaphoreMore.

(** ** Map: stores, deletes and traversal *)

Section MapMore.
Context `{Countable K} {V : Type} (zero : V).
Import Map.

Implicit Types (mp : Map.t K V) (key : K) (value : V).

Lemma entries_Store mp key value :
  entries (Store mp key value) = <[key := value]> (entries mp).
Proof. destruct mp as [mm]. apply entries_mak_Set. Qed.

Lemma entries_Delete mp key :
  entries (Delete mp key) = delete key (entries mp).
Proof. destruct mp as [mm]. apply entries_godelete. Qed.

Lemma Delete_absent mp key : entries mp !! key = None -> Delete mp key = mp.
Proof.
  destruct mp as [[g|]]; unfold Delete, godelete, entries; cbn [m];
    [|reflexivity].
  intros Hk. rewrite (delete_id g key Hk). reflexivity.
Qed.

(** [Store] then [Load], for a key that is equal to itself under [==] (as
    all keys of this model are; a floating-point NaN is not): the key
    reads back the value stored, every other key reads as before, and the
    map is allocated afterwards. *)
Theorem Store_then_Load_key mp key value :
  Load zero (Store mp key value) key = (value, true) /\
  (forall key' : K, key' <> key ->
     Load zero (Store mp key value) key' = Load zero mp key') /\
  entries (Store mp key value) = <[key := value]> (entries mp) /\
  m (Store mp key value) <> None.
Proof.
  split; [|split; [|split]].
  - rewrite Load_entries, entries_Store, lookup_insert_eq. reflexivity.
  - intros key' Hne.
    rewrite !Load_entries, entries_Store, lookup_insert_ne by congruence.
    reflexivity.
  - apply entries_Store.
  - destruct mp as [[g|]]; discriminate.
Qed.

(** The last [Store] on a key wins, for a key that is equal to itself
    under [==] (as all keys of this model are; a floating-point NaN is
    not): storing twice leaves the map as the second store alone would. *)
Theorem Store_overwrites mp key (value1 value2 : V) :
  Store (Store mp key value1) key value2 = Store mp key value2.
Proof.
  destruct mp as [[g|]]; unfold Store, mak_Set; cbn [m];
    rewrite insert_insert_eq; reflexivity.
Qed.


(** The read-locked [Load] at the head of [LoadOrStore] is a fast path
    only: the write-locked section alone gives the same result and the
    same map. *)
Theorem LoadOrStore_is_locked mp key value :
  LoadOrStore zero mp key value = LoadOrStore_locked zero mp key value.
Proof.
  unfold LoadOrStore, LoadOrStore_locked, Load.
  destruct (index zero (m mp) key) as [e [|]]; reflexivity.
Qed.

(** A second [LoadOrStore] on the same key, whatever value it offers,
    loads what the first one left, for a key that is equal to itself
    under [==] (as all keys of this model are; a floating-point NaN is
    not): it returns the first call's value with [loaded = true] and
    changes nothing. *)
Theorem LoadOrStore_twice mp key (value1 value2 : V) :
  LoadOrStore zero (snd (LoadOrStore zero mp key value1)) key value2 =
    ((fst (fst (LoadOrStore zero mp key value1)), true),
     snd (LoadOrStore zero mp key value1)).
Proof.
  destruct (entries mp !! key) as [e|] eqn:He.
  - unfold LoadOrStore, Load.
    rewrite (index_present zero mp key e He). cbn [fst snd].
    rewrite (index_present zero mp key e He). reflexivity.
  - unfold LoadOrStore at 2 3 4, LoadOrStore_locked, Load.
    rewrite (index_absent zero mp key He). cbn [fst snd negb].
    unfold LoadOrStore, Load. cbn [m].
    rewrite index_entries.
    destruct mp as [mm]. cbn [m].
    rewrite entries_mak_Set, lookup_insert_eq. reflexivity.
Qed.

(** [LoadAndDelete] is [Load] and [Delete] in one critical section: it
    returns what [Load] returns and leaves the map [Delete] leaves. *)
Theorem LoadAndDelete_is_Load_Delete mp key :
  LoadAndDelete zero mp key = (Load zero mp key, Delete mp key).
Proof.
  destruct (entries mp !! key) as [e|] eqn:He; unfold LoadAndDelete, Load.
  - rewrite (index_present zero mp key e He). reflexivity.
  - rewrite (index_absent zero mp key He). cbn [snd].
    rewrite (Delete_absent mp key He). reflexivity.
Qed.

(** [Store] of a new key then [LoadAndDelete] of it, for a key that is
    equal to itself under [==] (as all keys of this model are; a
    floating-point NaN is not): the value comes back and the entries are
    those from before the store. *)
Theorem Store_then_LoadAndDelete mp key value :
  entries mp !! key = None ->
  fst (LoadAndDelete zero (Store mp key value) key) = (value, true) /\
  entries (snd (LoadAndDelete zero (Store mp key value) key)) = entries mp.
Proof.
  intros He. unfold LoadAndDelete.
  assert (Hin : entries (Store mp key value) !! key = Some value)
    by (rewrite entries_Store; apply lookup_insert_eq).
  rewrite (index_present zero _ key value Hin). cbn [fst snd].
  split; [reflexivity|].
  fold (Delete (Store mp key value) key).
  rewrite entries_Delete, entries_Store. apply delete_insert_id, He.
Qed.

End MapMore.

Section MapMoreRuns.
Import Map.

Lemma Store_then_Load_key_witness :
  Load 0 (Store (Store (Map.empty (K := string)) "a" 1) "b" 2) "a" =
  Load 0 (Store (Map.empty (K := string)) "a" 1) "a".
Proof.
  destruct (Store_then_Load_key 0 (Store (Map.empty (K := string)) "a" 1) "b" 2)
    as (_ & Hother & _).
  apply Hother. discriminate.
Defined.


Lemma Store_then_LoadAndDelete_witness :
  fst (LoadAndDelete 0 (Store (Map.empty (K := string)) "a" 7) "a") = (7, true) /\
  entries (snd (LoadAndDelete 0 (Store (Map.empty (K := string)) "a" 7) "a")) =
    entries (Map.empty (K := string)).
Proof.
  apply (Store_then_LoadAndDelete 0 (Map.empty (K := string)) "a" 7).
  reflexivity.
Defined.

End MapMoreRuns.

(** ** Map: Range *)

Section MapRange.
Context `{Countable K} {V S : Type}.
Import Map.

Implicit Types (mp : Map.t K V) (f : K -> V -> S -> bool * S).
Implicit Types (kvs called log : list (K * V)) (st : S).
Implicit Types (order : list (K * V) -> list (K * V)).

(** Recording the calls changes nothing for the callback, and the entries
    recorded are the front part of the list gone through. *)
Lemma range_loop_recording f kvs :
  forall st log,
    fst (range_loop (recording f) kvs (st, log)) = range_loop f kvs st /\
    exists called,
      snd (range_loop (recording f) kvs (st, log)) = log ++ called /\
      called `prefix_of` kvs.
Proof.
  induction kvs as [|[key value] rest IH]; intros st log; cbn [range_loop].
  - split; [reflexivity|]. exists []. rewrite app_nil_r.
    split; [reflexivity | apply prefix_nil].
  - cbn [fst snd].
    change (recording f key value (st, log))
      with (fst (f key value st), (snd (f key value st), log ++ [(key, value)])).
    cbn [fst snd].
    destruct (f key value st) as [[|] st']; cbn [fst snd].
    + destruct (IH st' (log ++ [(key, value)])) as (Hst & called & Hlog & Hpre).
      split; [exact Hst|]. exists ((key, value) :: called).
      rewrite Hlog, <- app_assoc. split; [reflexivity|].
      apply prefix_cons, Hpre.
    + split; [reflexivity|]. exists [(key, value)].
      split; [reflexivity|]. apply prefix_cons, prefix_nil.
Qed.

Lemma range_loop_recording_all f kvs :
  (forall key value st, fst (f key value st) = true) ->
  forall st log, snd (range_loop (recording f) kvs (st, log)) = log ++ kvs.
Proof.
  intros Hgo. induction kvs as [|[key value] rest IH]; intros st log;
    cbn [range_loop].
  - rewrite app_nil_r. reflexivity.
  - cbn [fst snd].
    change (recording f key value (st, log))
      with (fst (f key value st), (snd (f key value st), log ++ [(key, value)])).
    cbn [fst snd]. rewrite Hgo.
    rewrite IH, <- app_assoc. reflexivity.
Qed.

(** [Range] calls [f] on entries of the map only and on none twice, on a
    front part of the iteration order; a map without entries gets no call
    at all.  Recording the calls does not change what the callback
    computes. *)
Theorem Range_visits_entries_once order mp f st :
  (forall l : list (K * V), order l ≡ₚ l) ->
  fst (Range order mp (recording f) (st, [])) = Range order mp f st /\
  visited order mp f st `prefix_of` order (map_to_list (entries mp)) /\
  NoDup (visited order mp f st) /\
  (forall key value, (key, value) ∈ visited order mp f st ->
     entries mp !! key = Some value) /\
  (entries mp = ∅ -> visited order mp f st = [] /\ Range order mp f st = st).
Proof.
  intros Hperm. unfold visited, Range.
  destruct (range_loop_recording f (order (map_to_list (entries mp))) st [])
    as (Hst & called & Hlog & Hpre).
  rewrite Hlog. cbn [app].
  assert (Hnd : NoDup (order (map_to_list (entries mp)))).
  { rewrite Hperm. apply NoDup_map_to_list. }
  split; [exact Hst|]. split; [exact Hpre|].
  destruct Hpre as [more Hmore].
  split; [|split].
  - rewrite Hmore in Hnd. apply NoDup_app in Hnd. apply Hnd.
  - intros key value Hin. apply elem_of_map_to_list.
    rewrite <- (Hperm (map_to_list (entries mp))), Hmore.
    apply elem_of_app. left. exact Hin.
  - intros Hempty. rewrite Hempty, map_to_list_empty in *.
    assert (Hnil : order [] = []) by (apply Permutation_nil_r, Hperm).
    rewrite Hnil in *. symmetry in Hmore.
    apply app_eq_nil in Hmore as [-> _].
    split; reflexivity.
Qed.

(** When [f] always answers [true], [Range] calls it on every entry of the
    map exactly once: the entries visited are the entries of the map, as
    many as the map has. *)
Theorem Range_visits_all order mp f st :
  (forall l : list (K * V), order l ≡ₚ l) ->
  (forall key value st', fst (f key value st') = true) ->
  visited order mp f st ≡ₚ map_to_list (entries mp) /\
  length (visited order mp f st) = size (entries mp).
Proof.
  intros Hperm Hgo. unfold visited, Range.
  rewrite (range_loop_recording_all f _ Hgo). cbn [app].
  split; [apply Hperm|].
  rewrite Hperm. apply length_map_to_list.
Qed.

(** When [f] answers [false] on the first entry it is given, [Range]
    returns after that one call, however many entries the map has. *)
Theorem Range_stops_at_first order mp f st (kv : K * V) (rest : list (K * V)) :
  order (map_to_list (entries mp)) = kv :: rest ->
  fst (f (fst kv) (snd kv) st) = false ->
  visited order mp f st = [kv] /\
  Range order mp f st = snd (f (fst kv) (snd kv) st).
Proof.
  intros Horder Hstop. unfold visited, Range. rewrite Horder.
  cbn [range_loop]. unfold recording. cbn [fst snd]. rewrite Hstop.
  cbn [snd app]. destruct kv. split; reflexivity.
Qed.

End MapRange.

Section MapRangeRuns.
Import Map.

Lemma same_order (l : list (string * Z)) : (fun l' => l') l ≡ₚ l.
Proof. reflexivity. Qed.

Lemma Range_visits_entries_once_witness :
  NoDup (visited (fun l => l) Demo.two_entries (Demo.counting true) 0) /\
  visited (fun l => l) (Map.empty (K := string)) (Demo.counting true) 0 = [].
Proof.
  destruct (Range_visits_entries_once (fun l => l) Demo.two_entries
              (Demo.counting true) 0 same_order) as (_ & _ & Hnd & _).
  split; [exact Hnd|].
  destruct (Range_visits_entries_once (fun l => l) (Map.empty (K := string))
              (Demo.counting true) 0 same_order) as (_ & _ & _ & _ & Hempty).
  apply Hempty. reflexivity.
Defined.

Lemma Range_visits_all_witness :
  length (visited (fun l => l) Demo.two_entries (Demo.counting true) 0) =
    size (entries Demo.two_entries).
Proof.
  apply (Range_visits_all (fun l => l) Demo.two_entries (Demo.counting true) 0 same_order).
  reflexivity.
Defined.

Lemma Range_stops_at_first_witness :
  length (visited (fun l => l) Demo.two_entries (Demo.counting false) 0) = 1%nat /\
  Range (fun l => l) Demo.two_entries (Demo.counting false) 0 = 1.
Proof.
  destruct (map_to_list (entries Demo.two_entries)) as [|kv rest] eqn:Hl;
    [vm_compute in Hl; discriminate|].
  destruct (Range_stops_at_first (fun l => l) Demo.two_entries (Demo.counting false) 0
              kv rest Hl eq_refl) as [Hv Hr].
  rewrite Hv, Hr. split; reflexivity.
Defined.

End MapRangeRuns.
